(** * BlockingQueue<T> (Cpp11-BlockingQueue.h): a shallow embedding

    The class composes a [std::queue<T>], a [std::mutex] and a
    [std::condition_variable].  Every member function takes [mtx_] for its
    whole body, so a call is one atomic transformer of the member [q_]; the
    single place where the lock is given up inside a body is [cv_.wait] in
    [deQ].  The development therefore has three layers:

    - [StdQueue]: the container primitives the class calls;
    - the member functions, written in a small outcome/state monad that
      follows the statements of the header line by line;
    - a store of queue objects for the two move operations (which involve
      two objects that may alias), and a scheduler-level transition system
      for a consumer suspended in [cv_.wait]. *)

From Equations.Prop Require Import Equations Logic.
From Stdlib Require Import Ascii.
From stdpp Require Import gmap strings list pretty.

Set Default Proof Using "Type".

(** ** std::queue<T> *)

(** The sequence is a list whose head is the front of the queue.  [front]
    and [pop] have a precondition in the C++ library (a non-empty
    container); a call that violates it has no defined result, which is
    [None] here. *)
Module StdQueue.
Section ops.
Context {T : Type}.

Definition queue := list T.

Definition size (q : queue) : nat := length q.

Definition push (t : T) (q : queue) : queue := q ++ [t].

Definition front (q : queue) : option T :=
  match q with
  | [] => None
  | t :: _ => Some t
  end.

Definition pop (q : queue) : option queue :=
  match q with
  | [] => None
  | _ :: q' => Some q'
  end.
End ops.
Arguments queue : clear implicits.
End StdQueue.

(** ** Outcomes of a call *)

(** [front] throws [std::exception("attempt to access empty queue")]. *)
Inductive exception : Type :=
| std_exception (what : string).

(** A call returns a value, leaves by an exception, never comes back because
    the caller is parked in [cv_.wait], or runs into a violated library
    precondition. *)
Inductive outcome (A : Type) : Type :=
| Returns (a : A)
| Throws (e : exception)
| Blocks
| Undefined.
Arguments Returns {A} a.
Arguments Throws {A} e.
Arguments Blocks {A}.
Arguments Undefined {A}.

(** State passing with an outcome: the state after the call is kept in all
    four cases (an exception or a suspension leaves the object as it was at
    that point). *)
Definition M (S A : Type) : Type := S -> outcome A * S.

Definition ret {S A} (a : A) : M S A := fun s => (Returns a, s).

Definition bind {S A B} (m : M S A) (k : A -> M S B) : M S B :=
  fun s =>
    match m s with
    | (Returns a, s') => k a s'
    | (Throws e, s') => (Throws e, s')
    | (Blocks, s') => (Blocks, s')
    | (Undefined, s') => (Undefined, s')
    end.

Definition throw {S A} (e : exception) : M S A := fun s => (Throws e, s).

Definition suspend {S A} : M S A := fun s => (Blocks, s).

(** The monad is used through stdpp's [mret]/[mbind] notations:
    [x ← m; k] and [m;; k]. *)
#[global] Instance M_ret {S} : MRet (M S) := fun A => ret.
#[global] Instance M_bind {S} : MBind (M S) := fun A B k m => bind m k.

(** ** The class *)

Section BlockingQueue.
Context {T : Type}.

(** [private: std::queue<T> q_;]  The mutex and the condition variable
    carry no data of their own at this level: a member function body is
    atomic. *)
Record BlockingQueue : Type := mkBQ { q_ : StdQueue.queue T }.

(** [BlockingQueue() {}] *)
Definition new_queue : BlockingQueue := mkBQ [].

(** The calls the member functions make on [q_]. *)
Definition q_size : M BlockingQueue nat :=
  fun this => (Returns (StdQueue.size (q_ this)), this).

Definition q_push (t : T) : M BlockingQueue unit :=
  fun this => (Returns tt, mkBQ (StdQueue.push t (q_ this))).

Definition q_front : M BlockingQueue T :=
  fun this =>
    match StdQueue.front (q_ this) with
    | Some t => (Returns t, this)
    | None => (Undefined, this)
    end.

Definition q_pop : M BlockingQueue unit :=
  fun this =>
    match StdQueue.pop (q_ this) with
    | Some q' => (Returns tt, mkBQ q')
    | None => (Undefined, this)
    end.

(** [T temp = std::move(q_.front()); q_.pop(); return temp;] *)
Definition take_front : M BlockingQueue T :=
  temp ← q_front;
  q_pop;;
  mret temp.

(** [while (q_.size() == 0) cv_.wait(l, [this] () { return q_.size() > 0; });]
    [wait(l, pred)] is [while (!pred()) wait(l);].  With the queue empty
    the caller is parked; with an element present neither loop is entered. *)
Definition wait_nonempty : M BlockingQueue unit :=
  n ← q_size;
  if n =? 0 then suspend else mret tt.

(** Lines 135-139: where a woken consumer resumes. *)
Definition deQ_resume : M BlockingQueue T :=
  wait_nonempty;;
  take_front.

(** [T deQ()] *)
Definition deQ : M BlockingQueue T :=
  n ← q_size;
  if 0 <? n then take_front
  else deQ_resume.

(** [void enQ(T t)]; [cv_.notify_one()] changes no data. *)
Definition enQ (t : T) : M BlockingQueue unit :=
  q_push t.

(** [T& front()] *)
Definition front : M BlockingQueue T :=
  n ← q_size;
  if 0 <? n then q_front
  else throw (std_exception "attempt to access empty queue").

(** [while (q_.size() > 0) q_.pop();] *)
Equations pop_all (this : BlockingQueue) : outcome unit * BlockingQueue
  by wf (StdQueue.size (q_ this)) lt :=
  pop_all this with inspect (0 <? StdQueue.size (q_ this)) := {
    | exist _ false _ := (Returns tt, this)
    | exist _ true _ with inspect (q_pop this) := {
        | exist _ (Returns _, this') Hpop := pop_all this'
        | exist _ (o, this') _ := (o, this') } }.
Next Obligation.
  intros [[|x q]] a this' Hpop _ _; unfold q_pop in Hpop; simpl in Hpop.
  - discriminate.
  - injection Hpop as _ <-. unfold StdQueue.size. simpl. lia.
Qed.

(** [void clear()] *)
Definition clear : M BlockingQueue unit := pop_all.

(** [size_t size()]; the count is a natural number (a [size_t] cannot
    overflow on the length of a sequence held in memory). *)
Definition size : M BlockingQueue nat := q_size.

End BlockingQueue.
Arguments BlockingQueue : clear implicits.

(** ** Client programs used to state the properties *)

Section clients.
Context {T : Type}.

(** [enQ(v1); ...; enQ(vn);] *)
Fixpoint enQ_all (vs : list T) : M (BlockingQueue T) unit :=
  match vs with
  | [] => mret tt
  | v :: vs' => enQ v;; enQ_all vs'
  end.

(** [n] calls of [deQ()], the returned values collected in call order. *)
Fixpoint deQ_n (n : nat) : M (BlockingQueue T) (list T) :=
  match n with
  | 0 => mret []
  | S n' => v ← deQ; vs ← deQ_n n'; mret (v :: vs)
  end.
End clients.

(** ** A store of queue objects *)

(** The move operations take a second object by reference, and the two
    references may name the same object.  Objects live in a store indexed by
    address; a reference to storage that holds no object is a violated
    precondition. *)

Section store.
Context {T : Type}.

(** [p->m(...)]: the member function [m] run on the object at address [p]. *)
Definition on {A : Type} (p : nat) (m : M (BlockingQueue T) A)
  : M (gmap nat (BlockingQueue T)) A :=
  fun h =>
    match h !! p with
    | Some obj => let (o, obj') := m obj in (o, <[p := obj']> h)
    | None => (Undefined, h)
    end.

(** Member initialisation ahead of a constructor body: [q_] is default
    constructed (empty). *)
Definition construct (this : nat) : M (gmap nat (BlockingQueue T)) unit :=
  fun h => (Returns tt, <[this := new_queue]> h).

(** [q_ = bq.q_;] inside a member of the object at [this]. *)
Definition assign_q (this bq : nat) : M (gmap nat (BlockingQueue T)) unit :=
  fun h =>
    match h !! this, h !! bq with
    | Some _, Some src => (Returns tt, <[this := mkBQ (q_ src)]> h)
    | _, _ => (Undefined, h)
    end.

(** [BlockingQueue(BlockingQueue<T>&& bq) noexcept] *)
Definition move_ctor (this bq : nat) : M (gmap nat (BlockingQueue T)) unit :=
  construct this;;
  assign_q this bq;;
  on bq pop_all.

(** [BlockingQueue<T>& operator=(BlockingQueue<T>&& bq) noexcept] *)
Definition move_assign (this bq : nat) : M (gmap nat (BlockingQueue T)) unit :=
  if decide (this = bq) then mret tt
  else
    assign_q this bq;;
    on bq pop_all.

(** [n = b.size(); n values from b.deQ(); m = a.size();] as the
    demonstration program prints them after a move. *)
Definition observe_moved (b a : nat) (n : nat)
  : M (gmap nat (BlockingQueue T)) (nat * list T * nat) :=
  nb ← on b size;
  vs ← on b (deQ_n n);
  na ← on a size;
  mret (nb, vs, na).

End store.

(** ** A consumer inside [deQ] and the threads around it *)

(** [mtx_] makes every member function body a critical section, and
    [cv_.wait] gives the lock up only while the caller is parked.  A
    schedule is therefore a sequence of whole critical sections: those of
    the observed consumer (its entry into [deQ], and each return of
    [cv_.wait], whether caused by [notify_one] or spurious), and those of
    the calls other threads make on the objects of the store.  Allowing the
    consumer to be woken at any point covers every wake-up the condition
    variable can deliver.

    The move operations lock their destination only.  The schedules are the
    executions in which a move's access to its source overlaps no other
    critical section on that source; an overlap is a data race, for which
    C++ defines no behaviour. *)

Section threads.
Context {T : Type}.

(** Where the observed consumer stands in its call of [deQ]. *)
Inductive pc : Type :=
| Calling
| Parked
| Returned (v : T)
| Faulted.

(** The public interface of the class, as calls on objects of the store.
    A [CallDeQ] of another consumer that finds the queue empty parks that
    thread; each of its later wake-ups is one more [CallDeQ]. *)
Inductive api_call : Type :=
| CallEnQ (p : nat) (t : T)
| CallDeQ (p : nat)
| CallFront (p : nat)
| CallClear (p : nat)
| CallSize (p : nat)
| CallMoveCtor (this bq : nat)
| CallMoveAssign (this bq : nat).

Inductive event : Type :=
| Consumer
| Other (c : api_call).

Record config : Type :=
  mkConfig { heap : gmap nat (BlockingQueue T); consumer : pc }.

Definition effect (c : api_call) (h : gmap nat (BlockingQueue T))
  : gmap nat (BlockingQueue T) :=
  match c with
  | CallEnQ p t => (on p (enQ t) h).2
  | CallDeQ p => (on p deQ h).2
  | CallFront p => (on p front h).2
  | CallClear p => (on p clear h).2
  | CallSize p => (on p size h).2
  | CallMoveCtor this bq => (move_ctor this bq h).2
  | CallMoveAssign this bq => (move_assign this bq h).2
  end.

Definition settle (r : outcome T * gmap nat (BlockingQueue T)) : config :=
  match r with
  | (Returns v, h) => mkConfig h (Returned v)
  | (Blocks, h) => mkConfig h Parked
  | (Throws _, h) => mkConfig h Faulted
  | (Undefined, h) => mkConfig h Faulted
  end.

(** One critical section of the schedule; [p] is the queue the consumer
    calls [deQ] on. *)
Definition step (p : nat) (c : config) (e : event) : config :=
  match e with
  | Consumer =>
      match consumer c with
      | Calling => settle (on p deQ (heap c))
      | Parked => settle (on p deQ_resume (heap c))
      | Returned _ => c
      | Faulted => c
      end
  | Other call => mkConfig (effect call (heap c)) (consumer c)
  end.

Definition run (p : nat) (sched : list event) (c : config) : config :=
  foldl (step p) c sched.

(** The events that are an [enQ] on the queue at [p]. *)
Definition is_enQ (p : nat) (e : event) : bool :=
  match e with
  | Other (CallEnQ p' _) => bool_decide (p' = p)
  | _ => false
  end.

(** The events that can put elements into the queue at [p]: an [enQ] on it,
    or a move that has it as destination. *)
Definition fills (p : nat) (e : event) : bool :=
  match e with
  | Other (CallEnQ p' _) => bool_decide (p' = p)
  | Other (CallMoveCtor this _) => bool_decide (this = p)
  | Other (CallMoveAssign this _) => bool_decide (this = p)
  | _ => false
  end.

Definition has_returned (c : config) : bool :=
  match consumer c with
  | Returned _ => true
  | _ => false
  end.

(** [m] leaves the queue at [p] empty when it was empty. *)
Definition keeps_empty {A : Type} (p : nat)
  (m : M (gmap nat (BlockingQueue T)) A) : Prop :=
  forall h, h !! p = Some new_queue -> (m h).2 !! p = Some new_queue.

(** The consumer has entered or is about to enter [deQ] and has not left
    it, and its queue is empty. *)
Definition waiting_on_empty (p : nat) (c : config) : Prop :=
  heap c !! p = Some new_queue /\
  (consumer c = Calling \/ consumer c = Parked).

End threads.
Arguments pc : clear implicits.
Arguments api_call : clear implicits.
Arguments event : clear implicits.
Arguments config : clear implicits.

(** ** Concrete stores and schedules *)

Open Scope string_scope.

(** A store with A = ["x","y"] at address 1 and B = ["old"] at address 2;
    address 3 is free. *)
Definition demo_store : gmap nat (BlockingQueue string) :=
  <[1 := mkBQ ["x"; "y"]]> (<[2 := mkBQ ["old"]]> ∅).

(** The store of the concrete runs, with an empty queue at address 0 on
    which a consumer calls deQ. *)
Definition wait_store : gmap nat (BlockingQueue string) :=
  <[0 := new_queue]> demo_store.

(** Wake-ups and calls of other threads, none of which fills queue 0. *)
Definition quiet_schedule : list (event string) :=
  [Consumer; Other (CallClear 0); Consumer; Other (CallDeQ 0);
   Other (CallEnQ 1 "z"); Other (CallMoveAssign 2 0); Consumer].

(** The consumer enters deQ, another thread runs [q0 = std::move(q1)], the
    consumer is woken. *)
Definition move_schedule : list (event string) :=
  [Consumer; Other (CallMoveAssign 0 1); Consumer].

Close Scope string_scope.

(** ** Histories of calls on one queue *)

(** Calls of any number of threads on one queue, in the order in which they
    hold [mtx_].  A [deQ] that finds the queue empty parks its caller and
    hands out nothing; each later wake-up of that caller is one more
    [ReqDeQ] of the history. *)

Section history.
Context {T : Type}.

Inductive request : Type :=
| ReqEnQ (t : T)
| ReqDeQ
| ReqFront
| ReqSize
| ReqClear.

(** One call: the value handed out by a [deQ] that returns, and the queue
    afterwards. *)
Definition serve (r : request) (this : BlockingQueue T)
  : option T * BlockingQueue T :=
  match r with
  | ReqEnQ t => (None, (enQ t this).2)
  | ReqDeQ =>
      match deQ this with
      | (Returns v, this') => (Some v, this')
      | (_, this') => (None, this')
      end
  | ReqFront => (None, (front this).2)
  | ReqSize => (None, (size this).2)
  | ReqClear => (None, (clear this).2)
  end.

(** The values handed out by the [deQ] calls of a history, in call order,
    and the queue at its end. *)
Fixpoint serve_all (rs : list request) (this : BlockingQueue T)
  : list T * BlockingQueue T :=
  match rs with
  | [] => ([], this)
  | r :: rs' =>
      let (v, this') := serve r this in
      let (vs, this'') := serve_all rs' this' in
      (match v with Some x => x :: vs | None => vs end, this'')
  end.

(** The arguments of the [enQ] calls of a history, in call order. *)
Fixpoint enqueued (rs : list request) : list T :=
  match rs with
  | [] => []
  | ReqEnQ t :: rs' => t :: enqueued rs'
  | _ :: rs' => enqueued rs'
  end.

Definition is_clear (r : request) : bool :=
  match r with
  | ReqClear => true
  | _ => false
  end.

End history.
Arguments request : clear implicits.

(** A history on a queue that starts with one element: the third deQ finds
    the queue empty. *)
Definition demo_history : list (request string) :=
  [ReqDeQ; ReqDeQ; ReqEnQ "a"%string; ReqFront; ReqEnQ "b"%string; ReqDeQ;
   ReqSize; ReqDeQ; ReqDeQ; ReqEnQ "c"%string].

(** ** The demonstration program (Cpp11-BlockingQueue.cpp) *)

(** [operator<<] on [msg.c_str()] writes the characters up to the first
    NUL. *)
Fixpoint c_str (s : string) : string :=
  match s with
  | EmptyString => EmptyString
  | String a s' =>
      if Ascii.eqb a "000"%char then EmptyString else String a (c_str s')
  end.

(** [std::cout << "\n  thread deQed " << msg.c_str();] under [ioLock]: one
    entry of the console. *)
Definition thread_line (msg : string) : string :=
  String "010"%char "  thread deQed "%string ++ c_str msg.

(** [std::cout << "\n   main enQing " << msg.c_str();] under [ioLock]. *)
Definition main_line (msg : string) : string :=
  String "010"%char "   main enQing "%string ++ c_str msg.

(** The queue [test] works on and the console. *)
Record world : Type := mkWorld { pQ : BlockingQueue string; cout : list string }.

(** [void test(BlockingQueue<std::string>* pQ)] run with no other thread
    active: [do { msg = pQ->deQ(); print; sleep; } while (msg != "quit");]
    The sleep changes no data. *)
Equations test (w : world) : outcome unit * world
  by wf (StdQueue.size (q_ (pQ w))) lt :=
  test w with inspect (deQ (pQ w)) := {
    | exist _ (Returns msg, q') _ :=
        if decide (msg = "quit"%string)
        then (Returns tt, mkWorld q' (cout w ++ [thread_line msg]))
        else test (mkWorld q' (cout w ++ [thread_line msg]))
    | exist _ (Throws e, q') _ := (Throws e, mkWorld q' (cout w))
    | exist _ (Blocks, q') _ := (Blocks, mkWorld q' (cout w))
    | exist _ (Undefined, q') _ := (Undefined, mkWorld q' (cout w)) }.
Next Obligation.
  intros [[[|x s]] out] msg q' Hd _; simpl in *.
  - discriminate Hd.
  - injection Hd as _ <-. unfold StdQueue.size. simpl. lia.
Qed.

(** [main], lines 64-81: the messages of the loop and what main does with
    them. *)

(** [temp << i; msg = std::string("msg#") + temp.str();] *)
Definition msg_no (i : nat) : string := "msg#"%string ++ pretty i.

Inductive main_action : Type :=
| Announce (msg : string)
| Send (msg : string).

(** [for(int i=0; i<15; ++i) { ...; print; q.enQ(msg); sleep; }
    q.enQ("quit");] *)
Definition main_program : list main_action :=
  flat_map (fun i => [Announce (msg_no i); Send (msg_no i)]) (seq 0 15)
  ++ [Send "quit"%string].

(** Where the thread running [test] stands: about to call [deQ], parked
    inside it, holding the returned message before printing it, out of the
    loop, or ended by a failure of [deQ]. *)
Inductive test_pc : Type :=
| AtDeQ
| InWait
| AtPrint (msg : string)
| Finished
| Failed.

Record demo : Type :=
  mkDemo { shared : BlockingQueue string;
           console : list string;
           main_todo : list main_action;
           thread : test_pc }.

Inductive turn : Type :=
| MainTurn
| ThreadTurn.

Definition after_deQ (r : outcome string * BlockingQueue string) (d : demo)
  : demo :=
  match r with
  | (Returns msg, q') => mkDemo q' (console d) (main_todo d) (AtPrint msg)
  | (Blocks, q') => mkDemo q' (console d) (main_todo d) InWait
  | (Throws _, q') => mkDemo q' (console d) (main_todo d) Failed
  | (Undefined, q') => mkDemo q' (console d) (main_todo d) Failed
  end.

(** One critical section of main or of the thread.  With nothing left to
    do main waits in [t.join()]. *)
Definition demo_step (d : demo) (t : turn) : demo :=
  match t with
  | MainTurn =>
      match main_todo d with
      | [] => d
      | Announce msg :: todo =>
          mkDemo (shared d) (console d ++ [main_line msg]) todo (thread d)
      | Send msg :: todo =>
          mkDemo (enQ msg (shared d)).2 (console d) todo (thread d)
      end
  | ThreadTurn =>
      match thread d with
      | AtDeQ => after_deQ (deQ (shared d)) d
      | InWait => after_deQ (deQ_resume (shared d)) d
      | AtPrint msg =>
          mkDemo (shared d) (console d ++ [thread_line msg]) (main_todo d)
            (if decide (msg = "quit"%string) then Finished else AtDeQ)
      | Finished => d
      | Failed => d
      end
  end.

Definition demo_run (ts : list turn) (d : demo) : demo :=
  foldl demo_step d ts.

(** [BlockingQueue<std::string> q; std::thread t(test, &q);] *)
Definition demo_start (program : list main_action) : demo :=
  mkDemo new_queue [] program AtDeQ.

(** The arguments of the [enQ] calls of a program, in order. *)
Fixpoint sends (program : list main_action) : list string :=
  match program with
  | [] => []
  | Send msg :: todo => msg :: sends todo
  | Announce _ :: todo => sends todo
  end.

(** The console entries written by the thread. *)
Definition is_thread_line (l : string) : bool :=
  String.prefix (String "010"%char "  thread deQed "%string) l.

Definition thread_lines (out : list string) : list string :=
  List.filter is_thread_line out.

(** The message the thread has taken from the queue and not yet printed. *)
Definition held (k : test_pc) : list string :=
  match k with
  | AtPrint msg => [msg]
  | _ => []
  end.

(** What relates a state of the demonstration to the program it started
    from: [r] is the list of messages the thread has printed. *)
Definition demo_inv (program : list main_action) (d : demo) (r : list string)
  : Prop :=
  thread_lines (console d) = map thread_line r /\
  r ++ held (thread d) ++ q_ (shared d) ++ sends (main_todo d)
  = sends program /\
  thread d <> Failed /\
  (thread d = Finished ->
   exists r', r = r' ++ ["quit"%string] /\ "quit"%string ∉ r') /\
  (thread d <> Finished -> "quit"%string ∉ r).

(** The work the thread still has in hand: two critical sections for each
    queued message, one for a message taken and not yet printed. *)
Definition thread_work (d : demo) : nat :=
  2 * length (q_ (shared d)) + length (held (thread d)).

(** The messages of main's loop, and an interleaving in which the thread
    runs ahead of main and is parked more than once. *)
Definition main_messages : list string := map msg_no (seq 0 15).

Definition demo_schedule : list turn :=
  concat (repeat [ThreadTurn; MainTurn; MainTurn; ThreadTurn; ThreadTurn;
                  ThreadTurn; MainTurn] 12).

(** * Properties *)

(** ** Sequencing *)

Lemma bind_returns {S A B} (m : M S A) (k : A -> M S B) s a s' :
  m s = (Returns a, s') -> (m ≫= k) s = k a s'.
Proof. intros E. unfold mbind, M_bind, bind. rewrite E. reflexivity. Qed.


(** ** The member functions, one call at a time *)

Section sequential.
Context {T : Type}.
Implicit Types (q s : StdQueue.queue T) (this : BlockingQueue T) (t x : T).

Lemma pop_all_nil : pop_all (mkBQ (T:=T) []) = (Returns tt, mkBQ []).
Proof. reflexivity. Qed.

Lemma pop_all_cons x q : pop_all (mkBQ (x :: q)) = pop_all (mkBQ q).
Proof. rewrite pop_all_equation_1. reflexivity. Qed.

(** The recursion of [pop_all] is the loop of the header: test
    [q_.size() > 0], [q_.pop()], repeat. *)
Lemma pop_all_loop this :
  pop_all this =
  if 0 <? StdQueue.size (q_ this)
  then match q_pop this with
       | (Returns _, this') => pop_all this'
       | (o, this') => (o, this')
       end
  else (Returns tt, this).
Proof.
  destruct this as [[|x q]]; [reflexivity|].
  rewrite pop_all_cons. reflexivity.
Qed.

Lemma pop_all_run this : pop_all this = (Returns tt, new_queue).
Proof.
  destruct this as [q]. induction q as [|x q IH].
  - apply pop_all_nil.
  - rewrite pop_all_cons. exact IH.
Qed.

Lemma clear_run this : clear this = (Returns tt, new_queue).
Proof. apply pop_all_run. Qed.

Lemma size_run this : size this = (Returns (length (q_ this)), this).
Proof. reflexivity. Qed.

Lemma enQ_run t this : enQ t this = (Returns tt, mkBQ (q_ this ++ [t])).
Proof. reflexivity. Qed.

Lemma deQ_cons x q : deQ (mkBQ (x :: q)) = (Returns x, mkBQ q).
Proof. reflexivity. Qed.

Lemma deQ_nil : deQ (new_queue (T:=T)) = (Blocks, new_queue).
Proof. reflexivity. Qed.

Lemma deQ_resume_cons x q : deQ_resume (mkBQ (x :: q)) = (Returns x, mkBQ q).
Proof. reflexivity. Qed.

Lemma deQ_resume_nil : deQ_resume (new_queue (T:=T)) = (Blocks, new_queue).
Proof. reflexivity. Qed.

Lemma front_cons x q : front (mkBQ (x :: q)) = (Returns x, mkBQ (x :: q)).
Proof. reflexivity. Qed.

Lemma front_nil :
  front (new_queue (T:=T)) =
  (Throws (std_exception "attempt to access empty queue"), new_queue).
Proof. reflexivity. Qed.

Lemma enQ_all_run vs this :
  enQ_all vs this = (Returns tt, mkBQ (q_ this ++ vs)).
Proof.
  revert this. induction vs as [|v vs IH]; intros [q]; simpl.
  - rewrite app_nil_r. reflexivity.
  - rewrite (bind_returns _ _ _ _ _ (enQ_run v _)), IH. simpl.
    rewrite <- app_assoc. reflexivity.
Qed.

Lemma deQ_n_run s q :
  deQ_n (length s) (mkBQ (s ++ q)) = (Returns s, mkBQ q).
Proof.
  induction s as [|x s IH]; simpl; [reflexivity|].
  rewrite (bind_returns _ _ _ _ _ (deQ_cons x _)).
  rewrite (bind_returns _ _ _ _ _ IH). reflexivity.
Qed.

(** The guards of the header keep every call on [q_] inside its
    precondition. *)
Lemma calls_defined this :
  (deQ this).1 <> Undefined /\ (deQ_resume this).1 <> Undefined /\
  (front this).1 <> Undefined /\ (clear this).1 <> Undefined /\
  (size this).1 <> Undefined /\ forall t, (enQ t this).1 <> Undefined.
Proof.
  rewrite clear_run. destruct this as [[|x q]]; repeat split; try discriminate.
Qed.

End sequential.

Section sequential_claims.
Context {T : Type}.
Implicit Types (q s vs : list T) (this : BlockingQueue T) (t x : T).

Lemma deQ_n_all s : deQ_n (length s) (mkBQ s) = (Returns s, new_queue).
Proof. rewrite <- (app_nil_r s) at 2. apply deQ_n_run. Qed.

(** C1 (FIFO order).  Enqueuing v1..vn on a fresh queue with no dequeue in
    between and then calling deQ n times returns v1..vn in that order and
    leaves the queue empty.  On a queue that already holds elements the
    earlier elements come out first, followed by v1..vn in insertion
    order. *)
Theorem fifo_order vs this :
  (enQ_all vs;; deQ_n (length vs)) new_queue = (Returns vs, new_queue) /\
  (enQ_all vs;; deQ_n (length (q_ this) + length vs)) this
  = (Returns (q_ this ++ vs), new_queue).
Proof.
  split.
  - rewrite (bind_returns _ _ _ _ _ (enQ_all_run vs _)). simpl.
    apply deQ_n_all.
  - rewrite (bind_returns _ _ _ _ _ (enQ_all_run vs _)).
    rewrite <- length_app. apply deQ_n_all.
Qed.

(** C9 (deQ removes exactly the front).  On a queue holding x followed by
    q, deQ returns x and leaves exactly q, on the direct path and on the
    path of a woken consumer alike: every remaining element keeps its value
    and its place relative to the others (the element at position i+1 is
    afterwards at position i). *)
Theorem deQ_removes_exactly_front x q :
  deQ (mkBQ (x :: q)) = (Returns x, mkBQ q) /\
  deQ_resume (mkBQ (x :: q)) = (Returns x, mkBQ q) /\
  forall i : nat, q_ (deQ (mkBQ (x :: q))).2 !! i = (x :: q) !! S i.
Proof.
  split; [apply deQ_cons|]. split; [apply deQ_resume_cons|].
  intros i. reflexivity.
Qed.

(** C6 (size bookkeeping).  size() returns the number of elements of the
    sequence and leaves it unchanged; a fresh queue has size 0; after one
    enQ on a fresh queue size() is 1; after the following deQ (which returns
    the enqueued value) size() is 0. *)
Theorem size_counts_elements this t :
  size this = (Returns (length (q_ this)), this) /\
  (size (new_queue (T:=T))).1 = Returns 0 /\
  (enQ t;; size) new_queue = (Returns 1, mkBQ [t]) /\
  (enQ t;; v ← deQ; n ← size; mret (v, n)) new_queue
  = (Returns (t, 0), new_queue).
Proof. repeat split. Qed.

(** C5 (clear removes everything).  For every queue state, clear() returns
    and leaves the empty sequence: a following size() returns 0 and a
    following deQ() finds nothing to return and parks the caller. *)
Theorem clear_removes_all this :
  clear this = (Returns tt, new_queue) /\
  (clear;; size) this = (Returns 0, new_queue) /\
  (clear;; deQ) this = (Blocks, new_queue).
Proof.
  pose proof (clear_run this) as E.
  split; [exact E|].
  split; rewrite (bind_returns _ _ _ _ _ E); reflexivity.
Qed.

(** C10 (clear is total and idempotent).  clear() returns on every queue
    state, on the empty queue it changes nothing, and clear() followed by
    clear() ends in the same state as one clear(): the empty queue. *)
Theorem clear_idempotent this :
  (exists this', clear this = (Returns tt, this')) /\
  clear new_queue = (Returns tt, new_queue (T:=T)) /\
  (clear;; clear) this = clear this /\
  (clear this).2 = new_queue.
Proof.
  pose proof (clear_run this) as E.
  split; [eexists; exact E|].
  split; [reflexivity|].
  split; [|rewrite E; reflexivity].
  rewrite (bind_returns _ _ _ _ _ E), E. reflexivity.
Qed.

End sequential_claims.

(** ** Calls on objects of the store, and the move operations *)

Section store_facts.
Context {T : Type}.
Implicit Types (h : gmap nat (BlockingQueue T)) (s : list T) (a b p : nat).

Lemma on_run {A} p (m : M (BlockingQueue T) A) h obj o obj' :
  h !! p = Some obj -> m obj = (o, obj') ->
  on p m h = (o, <[p := obj']> h).
Proof. intros Hp Hm. unfold on. rewrite Hp, Hm. reflexivity. Qed.

Lemma on_dangling {A} p (m : M (BlockingQueue T) A) h :
  h !! p = None -> on p m h = (Undefined, h).
Proof. intros Hp. unfold on. rewrite Hp. reflexivity. Qed.

(** A call on one object leaves every other object as it was. *)
Lemma on_frame {A} p p' (m : M (BlockingQueue T) A) h :
  p <> p' -> (on p m h).2 !! p' = h !! p'.
Proof.
  intros Hne. unfold on. destruct (h !! p) as [obj|]; [|reflexivity].
  destruct (m obj) as [o obj']. simpl. apply lookup_insert_ne, Hne.
Qed.

Lemma on_target {A} p (m : M (BlockingQueue T) A) h obj :
  h !! p = Some obj -> (on p m h).2 !! p = Some (m obj).2.
Proof.
  intros Hp. unfold on. rewrite Hp. destruct (m obj) as [o obj']. simpl.
  apply lookup_insert_eq.
Qed.

Lemma assign_q_run this bq h dst src :
  h !! this = Some dst -> h !! bq = Some src ->
  assign_q this bq h = (Returns tt, <[this := mkBQ (q_ src)]> h).
Proof. intros H1 H2. unfold assign_q. rewrite H1, H2. reflexivity. Qed.

Lemma move_assign_self a h : move_assign a a h = (Returns tt, h).
Proof. unfold move_assign. rewrite decide_True; reflexivity. Qed.

Lemma move_assign_run h a b s :
  h !! a = Some (mkBQ s) -> is_Some (h !! b) -> a <> b ->
  move_assign b a h = (Returns tt, <[a := new_queue]> (<[b := mkBQ s]> h)).
Proof.
  intros Ha [dst Hb] Hne. unfold move_assign.
  rewrite decide_False by congruence.
  rewrite (bind_returns _ _ _ _ _ (assign_q_run b a h dst _ Hb Ha)). simpl.
  apply on_run with (obj := mkBQ s).
  - rewrite lookup_insert_ne by congruence. exact Ha.
  - apply pop_all_run.
Qed.

Lemma move_ctor_run h a b s :
  h !! a = Some (mkBQ s) -> a <> b ->
  move_ctor b a h = (Returns tt, <[a := new_queue]> (<[b := mkBQ s]> h)).
Proof.
  intros Ha Hne. unfold move_ctor.
  rewrite (bind_returns _ _ _ tt (<[b := new_queue]> h)) by reflexivity.
  assert (<[b := new_queue]> h !! a = Some (mkBQ s)) as Ha'
    by (rewrite lookup_insert_ne by congruence; exact Ha).
  rewrite (bind_returns _ _ _ _ _
             (assign_q_run b a _ new_queue _ (lookup_insert_eq _ _ _) Ha')).
  simpl. rewrite insert_insert_eq.
  apply on_run with (obj := mkBQ s).
  - rewrite lookup_insert_ne by congruence. exact Ha.
  - apply pop_all_run.
Qed.

(** What the demonstration program reads back after a move. *)
Lemma observe_moved_run h a b s :
  h !! b = Some (mkBQ s) -> h !! a = Some new_queue ->
  (observe_moved b a (length s) h).1 = Returns (length s, s, 0).
Proof.
  intros Hb Ha. unfold observe_moved.
  rewrite (bind_returns _ _ _ _ _ (on_run b size h _ _ _ Hb (size_run _))).
  rewrite (bind_returns _ _ _ _ _
             (on_run b (deQ_n _) _ _ _ _ (lookup_insert_eq _ _ _) (deQ_n_all s))).
  assert ((<[b := new_queue]> (<[b := mkBQ s]> h)) !! a = Some new_queue) as Ha'.
  { destruct (decide (b = a)) as [->|Hne].
    - apply lookup_insert_eq.
    - rewrite !lookup_insert_ne by congruence. exact Ha. }
  rewrite (bind_returns _ _ _ _ _ (on_run a size _ _ _ _ Ha' (size_run _))).
  reflexivity.
Qed.

End store_facts.

Section move_claims.
Context {T : Type}.
Implicit Types (h : gmap nat (BlockingQueue T)) (s : list T) (a b p : nat).

Lemma on_pop_all_outcome p h :
  (on p pop_all h).1 = Returns tt \/ (on p pop_all h).1 = Undefined.
Proof.
  unfold on. destruct (h !! p) as [obj|]; [|right; reflexivity].
  rewrite pop_all_run. left. reflexivity.
Qed.

Lemma assign_q_outcome a b h :
  (assign_q b a h).1 = Returns tt \/ (assign_q b a h).1 = Undefined.
Proof.
  unfold assign_q. destruct (h !! b), (h !! a); simpl; auto.
Qed.

(** Both move operations are [noexcept], and nothing in their bodies
    throws. *)
Lemma move_no_throw a b h e :
  (move_ctor b a h).1 <> Throws e /\ (move_assign b a h).1 <> Throws e.
Proof.
  split.
  - unfold move_ctor, mbind, M_bind, bind, construct.
    destruct (assign_q_outcome a b (<[b := new_queue]> h)) as [E|E];
      destruct (assign_q b a (<[b := new_queue]> h)) as [o h1];
      simpl in E; subst o; [|discriminate].
    destruct (on_pop_all_outcome a h1) as [E|E]; rewrite E; discriminate.
  - unfold move_assign. destruct (decide (b = a)); [discriminate|].
    unfold mbind, M_bind, bind.
    destruct (assign_q_outcome a b h) as [E|E];
      destruct (assign_q b a h) as [o h1];
      simpl in E; subst o; [|discriminate].
    destruct (on_pop_all_outcome a h1) as [E|E]; rewrite E; discriminate.
Qed.

(** C3 (move transfers the sequence).  Let A, at address a, hold the
    sequence s, and let B be another object, at address b.  Move
    construction of B from A (b fresh storage) and move assignment
    B = move(A) (b an existing queue) both return with B holding exactly s,
    in order, A holding the empty sequence and every other object
    untouched; read back, B.size() is the length of s, that many calls of
    B.deQ() return s in order, and A.size() is 0. *)
Theorem move_transfers_sequence h a b s :
  h !! a = Some (mkBQ s) -> a <> b ->
  (h !! b = None ->
   move_ctor b a h = (Returns tt, <[a := new_queue]> (<[b := mkBQ s]> h)) /\
   ((move_ctor b a;; observe_moved b a (length s)) h).1
   = Returns (length s, s, 0)) /\
  (is_Some (h !! b) ->
   move_assign b a h = (Returns tt, <[a := new_queue]> (<[b := mkBQ s]> h)) /\
   ((move_assign b a;; observe_moved b a (length s)) h).1
   = Returns (length s, s, 0)).
Proof.
  intros Ha Hne.
  assert ((<[a := new_queue]> (<[b := mkBQ s]> h)) !! b = Some (mkBQ s)) as Hb'.
  { rewrite lookup_insert_ne by exact Hne. apply lookup_insert_eq. }
  pose proof (lookup_insert_eq (<[b := mkBQ s]> h) a new_queue) as Ha'.
  split.
  - intros _. pose proof (move_ctor_run h a b s Ha Hne) as E.
    split; [exact E|].
    rewrite (bind_returns _ _ _ _ _ E).
    apply observe_moved_run; assumption.
  - intros Hb. pose proof (move_assign_run h a b s Ha Hb Hne) as E.
    split; [exact E|].
    rewrite (bind_returns _ _ _ _ _ E).
    apply observe_moved_run; assumption.
Qed.

(** C7 (self move assignment).  A = move(A) returns at once: the store, and
    with it the sequence of A, is exactly what it was. *)
Theorem move_assign_self_noop h a :
  move_assign a a h = (Returns tt, h) /\
  (move_assign a a h).2 !! a = h !! a.
Proof. rewrite move_assign_self. split; reflexivity. Qed.

(** C8 (move assignment discards the destination).  Whatever B held
    before, after B = move(A) the sequence of B is exactly the sequence A
    held before the call; this includes the case where B is A itself. *)
Theorem move_assign_discards_destination h a b s :
  h !! a = Some (mkBQ s) -> is_Some (h !! b) ->
  (move_assign b a h).1 = Returns tt /\
  (move_assign b a h).2 !! b = Some (mkBQ s).
Proof.
  intros Ha Hb. destruct (decide (a = b)) as [<-|Hne].
  - rewrite move_assign_self. split; [reflexivity | exact Ha].
  - rewrite (move_assign_run h a b s Ha Hb Hne). split; [reflexivity|].
    simpl. rewrite lookup_insert_ne by exact Hne. apply lookup_insert_eq.
Qed.

End move_claims.

Section error_claims.
Context {T : Type}.
Implicit Types (h : gmap nat (BlockingQueue T)) (this : BlockingQueue T).

(** C2 (the one error).  front() leaves by an exception exactly when the
    sequence is empty, and then at once: it never parks the caller.  No
    other member function and neither move operation ever leaves by an
    exception.  On a non-empty queue front() returns the element the next
    deQ() returns, and the queue is unchanged by it. *)
Theorem front_throws_iff_empty this :
  ((exists e, (front this).1 = Throws e) <-> q_ this = []) /\
  ((front this).1
   = Throws (std_exception "attempt to access empty queue"%string)
   <-> q_ this = []) /\
  (front this).1 <> Blocks /\
  (forall e,
     (deQ this).1 <> Throws e /\ (deQ_resume this).1 <> Throws e /\
     (clear this).1 <> Throws e /\ (size this).1 <> Throws e /\
     (forall t, (enQ t this).1 <> Throws e) /\
     (forall h a b,
        (move_ctor b a h).1 <> Throws e /\ (move_assign b a h).1 <> Throws e)) /\
  (forall x q,
     q_ this = x :: q ->
     front this = (Returns x, this) /\ (deQ this).1 = Returns x).
Proof.
  split; [|split; [|split; [|split]]].
  - destruct this as [[|x q]]; simpl; split.
    + reflexivity.
    + intros _. eexists. reflexivity.
    + intros [e He]. discriminate He.
    + discriminate.
  - destruct this as [[|x q]]; simpl; split;
      reflexivity || discriminate.
  - destruct this as [[|x q]]; discriminate.
  - intros e. rewrite clear_run.
    destruct this as [[|x q]]; repeat split; try discriminate;
      intros; apply move_no_throw.
  - intros x q E. destruct this as [s]. simpl in E. subst s.
    split; reflexivity.
Qed.

End error_claims.

(** ** A parked consumer *)

Section thread_facts.
Context {T : Type}.
Implicit Types (h : gmap nat (BlockingQueue T)) (p a b : nat) (c : config T).

Lemma keeps_empty_bind {A B} p (m : M (gmap nat (BlockingQueue T)) A)
  (k : A -> M (gmap nat (BlockingQueue T)) B) :
  keeps_empty p m -> (forall x, keeps_empty p (k x)) ->
  keeps_empty p (m ≫= k).
Proof.
  intros Hm Hk h Hp. specialize (Hm h Hp).
  unfold mbind, M_bind, bind. destruct (m h) as [[x| | |] h1]; simpl in *;
    try exact Hm.
  apply Hk, Hm.
Qed.

Lemma keeps_empty_on_other {A} p p' (m : M (BlockingQueue T) A) :
  p' <> p -> keeps_empty p (on p' m).
Proof. intros Hne h Hp. rewrite on_frame by exact Hne. exact Hp. Qed.

Lemma keeps_empty_on {A} p p' (m : M (BlockingQueue T) A) :
  (m new_queue).2 = new_queue -> keeps_empty p (on p' m).
Proof.
  intros Hm. destruct (decide (p' = p)) as [->|Hne].
  - intros h Hp. rewrite (on_target _ _ _ _ Hp), Hm. reflexivity.
  - apply keeps_empty_on_other, Hne.
Qed.

Lemma keeps_empty_construct p this :
  this <> p -> keeps_empty (T:=T) p (construct this).
Proof. intros Hne h Hp. simpl. rewrite lookup_insert_ne by exact Hne. exact Hp. Qed.

Lemma keeps_empty_assign_q p this bq :
  this <> p -> keeps_empty (T:=T) p (assign_q this bq).
Proof.
  intros Hne h Hp. unfold assign_q.
  destruct (h !! this), (h !! bq); simpl; try exact Hp.
  rewrite lookup_insert_ne by exact Hne. exact Hp.
Qed.

(** Of all calls of the interface, only an [enQ] on the queue or a move
    into it can end its emptiness. *)
Lemma effect_keeps_empty p call h :
  fills p (Other call) = false ->
  h !! p = Some new_queue -> effect call h !! p = Some new_queue.
Proof.
  intros Hf Hp. destruct call as [p' t|p'|p'|p'|p'|this bq|this bq];
    simpl in *.
  - apply bool_decide_eq_false in Hf.
    apply keeps_empty_on_other; assumption.
  - apply keeps_empty_on; [reflexivity | assumption].
  - apply keeps_empty_on; [reflexivity | assumption].
  - apply keeps_empty_on; [reflexivity | assumption].
  - apply keeps_empty_on; [reflexivity | assumption].
  - apply bool_decide_eq_false in Hf. revert h Hp.
    apply keeps_empty_bind; [apply keeps_empty_construct, Hf | intros _].
    apply keeps_empty_bind; [apply keeps_empty_assign_q, Hf | intros _].
    apply keeps_empty_on. reflexivity.
  - apply bool_decide_eq_false in Hf. revert h Hp.
    unfold move_assign. destruct (decide (this = bq)); [intros h Hp; exact Hp|].
    apply keeps_empty_bind; [apply keeps_empty_assign_q, Hf | intros _].
    apply keeps_empty_on. reflexivity.
Qed.

Lemma consumer_parks p h :
  h !! p = Some new_queue ->
  step p (mkConfig h Calling) Consumer = mkConfig h Parked /\
  step p (mkConfig h Parked) Consumer = mkConfig h Parked.
Proof.
  intros Hp. simpl.
  rewrite (on_run p deQ h _ _ _ Hp deQ_nil).
  rewrite (on_run p deQ_resume h _ _ _ Hp deQ_resume_nil).
  simpl. rewrite (insert_id h p new_queue Hp). split; reflexivity.
Qed.

Lemma consumer_wakes p h x q :
  h !! p = Some (mkBQ (x :: q)) ->
  step p (mkConfig h Parked) Consumer
  = mkConfig (<[p := mkBQ q]> h) (Returned x).
Proof.
  intros Hp. simpl.
  rewrite (on_run p deQ_resume h _ _ _ Hp (deQ_resume_cons x q)).
  reflexivity.
Qed.

Lemma step_waiting p c e :
  fills p e = false -> waiting_on_empty p c -> waiting_on_empty p (step p c e).
Proof.
  intros Hf [Hp Hc]. destruct c as [h k]. simpl in Hp, Hc.
  destruct e as [|call].
  - destruct (consumer_parks p h Hp) as [E1 E2].
    destruct Hc as [-> | ->]; [rewrite E1 | rewrite E2];
      split; simpl; auto.
  - split; simpl; [apply effect_keeps_empty; assumption | exact Hc].
Qed.

Lemma run_nil p c : run p [] c = c.
Proof. reflexivity. Qed.

Lemma run_cons p e sched c : run p (e :: sched) c = run p sched (step p c e).
Proof. reflexivity. Qed.

Lemma run_waiting p sched c :
  existsb (fills p) sched = false ->
  waiting_on_empty p c -> waiting_on_empty p (run p sched c).
Proof.
  revert c. induction sched as [|e sched IH]; intros c Hs Hc; simpl in *.
  - exact Hc.
  - apply orb_false_elim in Hs as [He Hs].
    apply IH; [exact Hs|]. apply step_waiting; assumption.
Qed.

End thread_facts.

Section thread_claims.
Context {T : Type}.
Implicit Types (h : gmap nat (BlockingQueue T)) (p : nat).

(** C4, as amended (a deQ on an empty queue waits for the queue to be
    filled).  A consumer that calls deQ on an empty queue is parked; each
    time it is woken with the queue still empty it is parked again; while
    no other thread calls enQ on the queue or moves another queue into it,
    the consumer has not returned after any number of wake-ups and calls of
    other threads, and the queue is still empty; and once a producer has
    enqueued x, the next wake-up makes the call return x. *)
Theorem deQ_on_empty_waits_until_filled p h :
  h !! p = Some new_queue ->
  step p (mkConfig h Calling) Consumer = mkConfig h Parked /\
  step p (mkConfig h Parked) Consumer = mkConfig h Parked /\
  (forall sched,
     existsb (fills p) sched = false ->
     has_returned (run p sched (mkConfig h Calling)) = false /\
     heap (run p sched (mkConfig h Calling)) !! p = Some new_queue) /\
  (forall x,
     run p [Consumer; Other (CallEnQ p x); Consumer] (mkConfig h Calling)
     = mkConfig h (Returned x)).
Proof.
  intros Hp. destruct (consumer_parks p h Hp) as [E1 E2].
  split; [exact E1|]. split; [exact E2|]. split.
  - intros sched Hs.
    destruct (run_waiting p sched (mkConfig h Calling) Hs) as [Hq Hc].
    { split; simpl; auto. }
    split; [|exact Hq]. unfold has_returned.
    destruct Hc as [-> | ->]; reflexivity.
  - intros x. rewrite !run_cons, run_nil, E1.
    assert (step p (mkConfig h Parked) (Other (CallEnQ p x))
            = mkConfig (<[p := mkBQ [x]]> h) Parked) as E3.
    { simpl. rewrite (on_run p (enQ x) h _ _ _ Hp (enQ_run x _)).
      reflexivity. }
    rewrite E3, (consumer_wakes p _ x []) by apply lookup_insert_eq.
    rewrite insert_insert_eq, (insert_id h p new_queue Hp). reflexivity.
Qed.

End thread_claims.

(** ** Concrete runs *)

Open Scope string_scope.

Lemma front_throws_iff_empty_witness :
  q_ (mkBQ ["x"; "y"]) = "x" :: ["y"] /\
  front (mkBQ ["x"; "y"]) = (Returns "x", mkBQ ["x"; "y"]) /\
  (deQ (mkBQ ["x"; "y"])).1 = Returns "x".
Proof.
  split; [reflexivity|].
  destruct (front_throws_iff_empty (mkBQ ["x"; "y"])) as (_ & _ & _ & _ & Hfront).
  apply (Hfront "x" ["y"]). reflexivity.
Defined.

Lemma move_transfers_sequence_witness :
  demo_store !! 1 = Some (mkBQ ["x"; "y"]) /\ 1 <> 2 /\ 1 <> 3 /\
  demo_store !! 3 = None /\ is_Some (demo_store !! 2) /\
  ((move_assign 2 1;; observe_moved 2 1 2) demo_store).1
  = Returns (2, ["x"; "y"], 0) /\
  ((move_ctor 3 1;; observe_moved 3 1 2) demo_store).1
  = Returns (2, ["x"; "y"], 0).
Proof.
  assert (demo_store !! 1 = Some (mkBQ ["x"; "y"])) as H1 by reflexivity.
  assert (1 <> 2) as N12 by lia.
  assert (1 <> 3) as N13 by lia.
  assert (demo_store !! 3 = None) as H3 by reflexivity.
  assert (is_Some (demo_store !! 2)) as H2 by (eexists; reflexivity).
  repeat (split; [assumption|]).
  split.
  - apply (move_transfers_sequence demo_store 1 2 ["x"; "y"] H1 N12), H2.
  - apply (move_transfers_sequence demo_store 1 3 ["x"; "y"] H1 N13), H3.
Defined.

Lemma move_assign_discards_destination_witness :
  demo_store !! 1 = Some (mkBQ ["x"; "y"]) /\ is_Some (demo_store !! 2) /\
  (move_assign 2 1 demo_store).1 = Returns tt /\
  (move_assign 2 1 demo_store).2 !! 2 = Some (mkBQ ["x"; "y"]).
Proof.
  assert (demo_store !! 1 = Some (mkBQ ["x"; "y"])) as H1 by reflexivity.
  assert (is_Some (demo_store !! 2)) as H2 by (eexists; reflexivity).
  repeat (split; [assumption|]).
  apply (move_assign_discards_destination demo_store 1 2 ["x"; "y"] H1 H2).
Defined.

Lemma deQ_on_empty_waits_until_filled_witness :
  wait_store !! 0 = Some new_queue /\
  existsb (fills 0) quiet_schedule = false /\
  has_returned (run 0 quiet_schedule (mkConfig wait_store Calling)) = false /\
  run 0 [Consumer; Other (CallEnQ 0 "v"); Consumer]
    (mkConfig wait_store Calling) = mkConfig wait_store (Returned "v").
Proof.
  assert (wait_store !! 0 = Some new_queue) as H0 by reflexivity.
  destruct (deQ_on_empty_waits_until_filled 0 wait_store H0)
    as (_ & _ & Hwait & Hret).
  split; [exact H0|]. split; [reflexivity|]. split.
  - apply Hwait. reflexivity.
  - apply Hret.
Defined.

(** C4, as stated, fails: the consumer is parked on the empty queue at
    address 0, another thread executes [q0 = std::move(q1)] with q1 holding
    "x","y" (the schedule has no enQ at all), the consumer is woken and its
    deQ returns "x". *)
Lemma deQ_returns_without_enQ :
  wait_store !! 0 = Some new_queue /\
  wait_store !! 1 = Some (mkBQ ["x"; "y"]) /\
  existsb (is_enQ 0) move_schedule = false /\
  step 0 (mkConfig wait_store Calling) Consumer = mkConfig wait_store Parked /\
  run 0 move_schedule (mkConfig wait_store Calling)
  = mkConfig (<[0 := mkBQ ["y"]]> (<[1 := new_queue]> wait_store))
      (Returned "x").
Proof. repeat split. Qed.

Close Scope string_scope.

(** * Further properties of the class *)

Section more_sequential.
Context {T : Type}.
Implicit Types (q s vs : list T) (this : BlockingQueue T) (t x : T).

(** X1 (library preconditions are respected).  On every queue state, no
    member function reaches a call of [q_.front()] or [q_.pop()] on an
    empty container: [deQ] (entered or resumed after a wait), [front],
    [clear], [size] and [enQ] all end in a return, an exception or a
    wait. *)
Theorem members_respect_preconditions this :
  (deQ this).1 <> Undefined /\ (deQ_resume this).1 <> Undefined /\
  (front this).1 <> Undefined /\ (clear this).1 <> Undefined /\
  (size this).1 <> Undefined /\ forall t, (enQ t this).1 <> Undefined.
Proof. apply calls_defined. Qed.

Lemma serve_all_cons r rs this :
  serve_all (r :: rs) this =
  (match (serve r this).1 with
   | Some x => x :: (serve_all rs (serve r this).2).1
   | None => (serve_all rs (serve r this).2).1
   end, (serve_all rs (serve r this).2).2).
Proof.
  simpl. destruct (serve r this) as [v this']. simpl.
  destruct (serve_all rs this') as [vs this'']. reflexivity.
Qed.

(** One call keeps the elements: what it hands out, followed by what is
    left, is what was there followed by what it put in. *)
Lemma serve_conserves r this :
  is_clear r = false ->
  match (serve r this).1 with Some x => [x] | None => [] end
  ++ q_ (serve r this).2
  = q_ this ++ enqueued [r].
Proof.
  intros Hr. destruct this as [[|x q]], r; try discriminate Hr;
    simpl; rewrite ?app_nil_r; reflexivity.
Qed.

(** X2 (conservation and global order).  In a history of enQ, deQ, front
    and size calls on one queue, interleaved in any way, the values handed
    out by the deQ calls, followed by the elements left in the queue, are
    exactly the elements the queue held at the start followed by the
    enqueued values in enQ order: nothing is lost, duplicated or
    reordered. *)
Theorem history_conserves_elements (rs : list (request T)) this :
  forallb (fun r => negb (is_clear r)) rs = true ->
  (serve_all rs this).1 ++ q_ (serve_all rs this).2
  = q_ this ++ enqueued rs.
Proof.
  revert this. induction rs as [|r rs IH]; intros this Hrs.
  - simpl. rewrite app_nil_r. reflexivity.
  - simpl in Hrs. apply andb_prop in Hrs as [Hr Hrs].
    apply negb_true_iff in Hr.
    rewrite serve_all_cons. simpl fst. simpl snd.
    pose proof (serve_conserves r this Hr) as E.
    specialize (IH (serve r this).2 Hrs).
    assert (enqueued (r :: rs) = enqueued [r] ++ enqueued rs) as ->
      by (destruct r; reflexivity).
    rewrite app_assoc, <- E, <- app_assoc, <- IH.
    destruct (serve r this).1; reflexivity.
Qed.

(** X3 (enQ and deQ commute on a non-empty queue).  When the queue holds
    at least one element, enqueuing t and then dequeuing gives the same
    returned value and the same final sequence as dequeuing first and
    enqueuing t afterwards. *)
Theorem enQ_deQ_commute t this :
  q_ this <> [] ->
  (enQ t;; deQ) this = (v ← deQ; enQ t;; mret v) this.
Proof.
  destruct this as [[|x q]]; [intros H; contradiction H; reflexivity|].
  intros _. reflexivity.
Qed.


End more_sequential.

Section more_moves.
Context {T : Type}.
Implicit Types (h : gmap nat (BlockingQueue T)) (s vs : list T) (a b c p : nat).




(** X5 (moving there and back).  For two distinct queues A and B,
    B = move(A) followed by A = move(B) returns with A holding the
    sequence it held at the start, B empty, and the rest of the store
    unchanged: A's elements survive the round trip in order, B's earlier
    elements do not. *)
Theorem move_assign_round_trip h a b s :
  h !! a = Some (mkBQ s) -> is_Some (h !! b) -> a <> b ->
  (move_assign b a;; move_assign a b) h = (Returns tt, <[b := new_queue]> h).
Proof.
  intros Ha Hb Hne.
  rewrite (bind_returns _ _ _ _ _ (move_assign_run h a b s Ha Hb Hne)).
  rewrite (move_assign_run _ b a s).
  - f_equal. apply map_eq. intros i.
    destruct (decide (i = b)) as [->|Hib].
    { rewrite !lookup_insert_eq. reflexivity. }
    rewrite !(lookup_insert_ne _ b) by congruence.
    destruct (decide (i = a)) as [->|Hia].
    { rewrite lookup_insert_eq. symmetry. exact Ha. }
    rewrite !(lookup_insert_ne _ a) by congruence.
    rewrite lookup_insert_ne by congruence. reflexivity.
  - rewrite lookup_insert_ne by congruence. apply lookup_insert_eq.
  - rewrite lookup_insert_eq. eexists. reflexivity.
  - congruence.
Qed.

(** X6 (first in, first out across a move).  Enqueue v1..vn on A, move A
    into another queue B (by assignment into an existing B or by
    construction of B in free storage), then dequeue from B: the calls
    return the elements A held before, followed by v1..vn, in order. *)
Theorem fifo_across_move h a b this vs :
  h !! a = Some this -> a <> b ->
  (is_Some (h !! b) ->
   ((on a (enQ_all vs);; move_assign b a;;
     on b (deQ_n (length (q_ this ++ vs)))) h).1
   = Returns (q_ this ++ vs)) /\
  (h !! b = None ->
   ((on a (enQ_all vs);; move_ctor b a;;
     on b (deQ_n (length (q_ this ++ vs)))) h).1
   = Returns (q_ this ++ vs)).
Proof.
  intros Ha Hne.
  pose proof (on_run a (enQ_all vs) h _ _ _ Ha (enQ_all_run vs this)) as E1.
  set (h1 := <[a := mkBQ (q_ this ++ vs)]> h) in *.
  assert (h1 !! a = Some (mkBQ (q_ this ++ vs))) as Ha1
    by apply lookup_insert_eq.
  assert (forall h2,
            h2 = <[a := new_queue]> (<[b := mkBQ (q_ this ++ vs)]> h1) ->
            (on b (deQ_n (length (q_ this ++ vs))) h2).1
            = Returns (q_ this ++ vs)) as Hread.
  { intros h2 ->.
    rewrite (on_run b (deQ_n _) _ (mkBQ (q_ this ++ vs)) _ _
               ltac:(rewrite lookup_insert_ne by exact Hne;
                     apply lookup_insert_eq)
               (deQ_n_all _)).
    reflexivity. }
  split.
  - intros Hb.
    assert (is_Some (h1 !! b)) as Hb1
      by (unfold h1; rewrite lookup_insert_ne by exact Hne; exact Hb).
    rewrite (bind_returns _ _ _ _ _ E1).
    rewrite (bind_returns _ _ _ _ _ (move_assign_run h1 a b _ Ha1 Hb1 Hne)).
    apply Hread. reflexivity.
  - intros _.
    rewrite (bind_returns _ _ _ _ _ E1).
    rewrite (bind_returns _ _ _ _ _ (move_ctor_run h1 a b _ Ha1 Hne)).
    apply Hread. reflexivity.
Qed.

End more_moves.

Section more_threads.
Context {T : Type}.
Implicit Types (h : gmap nat (BlockingQueue T)) (p : nat) (c : config T).







End more_threads.

(** * The demonstration program *)

Section test_alone.
Implicit Types (msgs rest out : list string) (msg : string).

Lemma test_nil out :
  test (mkWorld new_queue out) = (Blocks, mkWorld new_queue out).
Proof. rewrite test_equation_1. reflexivity. Qed.

Lemma test_cons_quit rest out :
  test (mkWorld (mkBQ ("quit"%string :: rest)) out)
  = (Returns tt, mkWorld (mkBQ rest) (out ++ [thread_line "quit"])).
Proof. rewrite test_equation_1. reflexivity. Qed.

Lemma test_cons_other msg rest out :
  msg <> "quit"%string ->
  test (mkWorld (mkBQ (msg :: rest)) out)
  = test (mkWorld (mkBQ rest) (out ++ [thread_line msg])).
Proof.
  intros Hne. rewrite test_equation_1. simpl.
  destruct (decide (msg = "quit"%string)); [contradiction|reflexivity].
Qed.

(** X8 (test stops at the first "quit").  Run on a queue that holds
    messages none of which is "quit", then "quit", then anything, test
    returns after writing one line for each message up to and including
    "quit", in queue order, and leaves what followed "quit" in the queue
    untouched. *)
Theorem test_stops_at_quit msgs rest out :
  "quit"%string ∉ msgs ->
  test (mkWorld (mkBQ (msgs ++ "quit"%string :: rest)) out)
  = (Returns tt,
     mkWorld (mkBQ rest) (out ++ map thread_line (msgs ++ ["quit"%string]))).
Proof.
  revert out. induction msgs as [|msg msgs IH]; intros out Hq; simpl.
  - apply test_cons_quit.
  - apply not_elem_of_cons in Hq as [Hne Hq].
    rewrite test_cons_other by congruence.
    rewrite IH by exact Hq. rewrite <- app_assoc. reflexivity.
Qed.

(** X9 (without "quit" test drains the queue and waits).  Run on a queue
    that holds no "quit", with no other thread to enqueue one, test writes
    one line for every message, in queue order, empties the queue and then
    never returns: it is parked in deQ. *)
Theorem test_waits_without_quit msgs out :
  "quit"%string ∉ msgs ->
  test (mkWorld (mkBQ msgs) out)
  = (Blocks, mkWorld new_queue (out ++ map thread_line msgs)).
Proof.
  revert out. induction msgs as [|msg msgs IH]; intros out Hq; simpl.
  - rewrite app_nil_r. apply test_nil.
  - apply not_elem_of_cons in Hq as [Hne Hq].
    rewrite test_cons_other by congruence.
    rewrite IH by exact Hq. rewrite <- app_assoc. reflexivity.
Qed.

End test_alone.

Section demonstration.
Implicit Types (program todo : list main_action) (d : demo)
  (r msgs : list string) (msg : string) (ts : list turn).

Lemma prefix_append (p s : string) : String.prefix p (p +:+ s) = true.
Proof.
  induction p as [|a p IH].
  - destruct s; reflexivity.
  - change (String a p +:+ s) with (String a (p +:+ s)). simpl.
    destruct (ascii_dec a a); [exact IH | congruence].
Qed.

Lemma is_thread_line_thread msg : is_thread_line (thread_line msg) = true.
Proof. apply prefix_append. Qed.

Lemma is_thread_line_main msg : is_thread_line (main_line msg) = false.
Proof. vm_compute. reflexivity. Qed.

Lemma thread_lines_app out1 out2 :
  thread_lines (out1 ++ out2) = thread_lines out1 ++ thread_lines out2.
Proof. apply List.filter_app. Qed.

Lemma thread_lines_thread msg :
  thread_lines [thread_line msg] = [thread_line msg].
Proof.
  change (thread_lines [thread_line msg])
    with (if is_thread_line (thread_line msg) then [thread_line msg] else []).
  rewrite is_thread_line_thread. reflexivity.
Qed.

Lemma thread_lines_main msg : thread_lines [main_line msg] = [].
Proof.
  change (thread_lines [main_line msg])
    with (if is_thread_line (main_line msg) then [main_line msg] else []).
  rewrite is_thread_line_main. reflexivity.
Qed.

Lemma demo_run_nil d : demo_run [] d = d.
Proof. reflexivity. Qed.

Lemma demo_run_cons t ts d :
  demo_run (t :: ts) d = demo_run ts (demo_step d t).
Proof. reflexivity. Qed.

Lemma demo_run_app ts1 ts2 d :
  demo_run (ts1 ++ ts2) d = demo_run ts2 (demo_run ts1 d).
Proof. apply foldl_app. Qed.

Lemma demo_inv_start program : demo_inv program (demo_start program) [].
Proof.
  repeat split; simpl; try discriminate.
  intros _. apply not_elem_of_nil.
Qed.

(** Every critical section keeps the relation, with the list of printed
    messages possibly one longer. *)
Lemma demo_inv_step program d r t :
  demo_inv program d r -> exists r', demo_inv program (demo_step d t) r'.
Proof.
  intros (Hout & Hall & Hok & Hfin & Hrun).
  destruct d as [[q] out todo k]. simpl in *.
  destruct t; simpl.
  - (* main *)
    destruct todo as [|[msg|msg] todo]; simpl in *.
    + exists r. repeat split; assumption.
    + exists r. repeat split; simpl; try assumption.
      rewrite thread_lines_app, thread_lines_main, app_nil_r. exact Hout.
    + exists r. repeat split; simpl; try assumption.
      unfold StdQueue.push. rewrite <- app_assoc. exact Hall.
  - (* the thread *)
    destruct k as [| |msg| |]; simpl in *.
    + assert ("quit"%string ∉ r) as Hr by (apply Hrun; discriminate).
      destruct q as [|x q]; simpl; exists r;
        (split; [exact Hout|]); (split; [exact Hall|]);
        (split; [discriminate|]); (split; [discriminate|]);
        intros _; exact Hr.
    + assert ("quit"%string ∉ r) as Hr by (apply Hrun; discriminate).
      destruct q as [|x q]; simpl; exists r;
        (split; [exact Hout|]); (split; [exact Hall|]);
        (split; [discriminate|]); (split; [discriminate|]);
        intros _; exact Hr.
    + exists (r ++ [msg]).
      assert ("quit"%string ∉ r) as Hr by (apply Hrun; discriminate).
      assert (thread_lines (out ++ [thread_line msg])
              = map thread_line (r ++ [msg])) as Hout'.
      { rewrite thread_lines_app, thread_lines_thread, map_app, Hout.
        reflexivity. }
      destruct (decide (msg = "quit"%string)) as [->|Hne]; simpl;
        (split; [exact Hout'|]);
        (split; [rewrite <- app_assoc; exact Hall|]);
        (split; [discriminate|]).
      * split; [|intros H; contradiction H; reflexivity].
        intros _. exists r. split; [reflexivity | exact Hr].
      * split; [discriminate|].
        intros _. rewrite not_elem_of_app, not_elem_of_cons.
        split; [exact Hr|]. split; [congruence | apply not_elem_of_nil].
    + exists r. repeat split; assumption.
    + exists r. repeat split; assumption.
Qed.

Lemma demo_inv_run program ts d r :
  demo_inv program d r -> exists r', demo_inv program (demo_run ts d) r'.
Proof.
  revert d r. induction ts as [|t ts IH]; intros d r Hinv.
  - exists r. exact Hinv.
  - rewrite demo_run_cons.
    destruct (demo_inv_step program d r t Hinv) as [r1 H1].
    exact (IH _ _ H1).
Qed.

(** X10 (what the thread prints, under every interleaving).  Start the
    thread on an empty queue and let main carry out any program of
    announcements and enQ calls.  After any interleaving of critical
    sections of main and of the thread, the lines written by the thread
    are the lines of the messages it has printed, and these messages,
    followed by the one it holds, the ones still queued and the ones main
    has yet to send, are exactly the messages of the program in sending
    order: the thread prints a prefix of what main sends, with no message
    lost, repeated or out of order; and deQ has not failed. *)
Theorem demo_thread_prints_prefix program ts :
  exists r,
    thread_lines (console (demo_run ts (demo_start program)))
    = map thread_line r /\
    r ++ held (thread (demo_run ts (demo_start program)))
      ++ q_ (shared (demo_run ts (demo_start program)))
      ++ sends (main_todo (demo_run ts (demo_start program)))
    = sends program /\
    thread (demo_run ts (demo_start program)) <> Failed.
Proof.
  destruct (demo_inv_run program ts _ _ (demo_inv_start program))
    as (r & Hout & Hall & Hok & _).
  exists r. repeat split; assumption.
Qed.

Lemma quit_splits_once (r' msgs tail : list string) :
  "quit"%string ∉ r' -> "quit"%string ∉ msgs ->
  r' ++ "quit"%string :: tail = msgs ++ ["quit"%string] ->
  r' = msgs /\ tail = [].
Proof.
  revert msgs. induction r' as [|x r' IH]; intros [|y msgs] Hr Hm E;
    simpl in E.
  - injection E as ->. split; reflexivity.
  - injection E as <- _. contradiction Hm. apply list_elem_of_here.
  - injection E as -> E. destruct r'; discriminate E.
  - injection E as -> E.
    apply not_elem_of_cons in Hr as [_ Hr].
    apply not_elem_of_cons in Hm as [_ Hm].
    destruct (IH msgs Hr Hm E) as [-> ->]. split; reflexivity.
Qed.

(** X11 (the thread ends only with everything received).  Let the program
    of main send messages none of which is "quit" and then "quit".  In
    whatever way main and the thread were interleaved, once the thread has
    left its loop it has printed one line for every message of the
    program, "quit" included, in sending order; the queue is empty and
    main has no enQ left to do. *)
Theorem demo_finished_is_complete program msgs ts :
  sends program = msgs ++ ["quit"%string] -> "quit"%string ∉ msgs ->
  thread (demo_run ts (demo_start program)) = Finished ->
  thread_lines (console (demo_run ts (demo_start program)))
  = map thread_line (msgs ++ ["quit"%string]) /\
  shared (demo_run ts (demo_start program)) = new_queue /\
  sends (main_todo (demo_run ts (demo_start program))) = [].
Proof.
  intros Hprog Hq Hfin.
  destruct (demo_inv_run program ts _ _ (demo_inv_start program))
    as (r & Hout & Hall & _ & Hdone & _).
  destruct (Hdone Hfin) as (r' & -> & Hr').
  rewrite Hfin, Hprog in Hall. simpl in Hall. rewrite <- app_assoc in Hall.
  destruct (quit_splits_once _ _ _ Hr' Hq Hall) as [-> Htail].
  apply app_eq_nil in Htail as [Hqueue Hsends].
  split; [exact Hout|]. split; [|exact Hsends].
  destruct (shared (demo_run ts (demo_start program))) as [q].
  simpl in Hqueue. rewrite Hqueue. reflexivity.
Qed.

Lemma demo_run_repeat t n d :
  demo_run (repeat t (S n)) d = demo_run (repeat t n) (demo_step d t).
Proof. reflexivity. Qed.

Lemma main_turns_run_out n d :
  length (main_todo d) <= n ->
  main_todo (demo_run (repeat MainTurn n) d) = [].
Proof.
  revert d. induction n as [|n IH]; intros d Hlen.
  - change (main_todo d = []).
    destruct (main_todo d); [reflexivity | simpl in Hlen; lia].
  - rewrite demo_run_repeat. apply IH.
    destruct d as [q out [|[msg|msg] todo] k]; simpl in *; lia.
Qed.

Lemma thread_turn_keeps_main d : main_todo (demo_step d ThreadTurn) = main_todo d.
Proof.
  destruct d as [[q] out todo k]. destruct k as [| |msg| |]; simpl;
    try reflexivity; destruct q; reflexivity.
Qed.

Lemma finished_stays n d :
  thread d = Finished -> demo_run (repeat ThreadTurn n) d = d.
Proof.
  intros Hfin. induction n as [|n IH]; [reflexivity|].
  rewrite demo_run_repeat.
  assert (demo_step d ThreadTurn = d) as -> by (simpl; rewrite Hfin; reflexivity).
  exact IH.
Qed.

(** With main done, a thread that has not left its loop always has work
    in hand, and each of its critical sections does one unit of it or
    leaves the loop. *)
Lemma thread_turn_progress program d r :
  demo_inv program d r -> main_todo d = [] ->
  "quit"%string ∈ sends program -> thread d <> Finished ->
  thread (demo_step d ThreadTurn) = Finished \/
  S (thread_work (demo_step d ThreadTurn)) = thread_work d.
Proof.
  intros (Hout & Hall & Hok & Hfin & Hrun) Htodo Hquit Hnf.
  destruct d as [[q] out todo k]. simpl in *. subst todo.
  unfold thread_work. simpl in *.
  assert (k = AtDeQ \/ k = InWait -> q <> []) as Hq.
  { intros Hk Hnil. subst q.
    assert (r = sends program) as Hr.
    { destruct Hk as [-> | ->]; simpl in Hall;
        rewrite ?app_nil_r in Hall; exact Hall. }
    apply (Hrun Hnf). rewrite Hr. exact Hquit. }
  destruct k as [| |msg| |]; simpl.
  - destruct q as [|x q]; [exfalso; apply Hq; auto|]. right. simpl. lia.
  - destruct q as [|x q]; [exfalso; apply Hq; auto|]. right. simpl. lia.
  - destruct (decide (msg = "quit"%string)); [left; reflexivity|].
    right. simpl. lia.
  - contradiction Hnf. reflexivity.
  - contradiction Hok. reflexivity.
Qed.

Lemma finished_or_not d : thread d = Finished \/ thread d <> Finished.
Proof. destruct (thread d); (left; reflexivity) || (right; discriminate). Qed.

Lemma thread_turns_finish program n d r :
  demo_inv program d r -> main_todo d = [] ->
  "quit"%string ∈ sends program -> thread_work d <= n ->
  thread (demo_run (repeat ThreadTurn (S n)) d) = Finished.
Proof.
  revert d r. induction n as [|n IH]; intros d r Hinv Htodo Hquit Hw;
    rewrite demo_run_repeat.
  - destruct (finished_or_not d) as [Hfin|Hnf].
    + simpl. rewrite Hfin. exact Hfin.
    + destruct (thread_turn_progress program d r Hinv Htodo Hquit Hnf)
        as [Hfin | Hstep]; [exact Hfin | lia].
  - destruct (finished_or_not d) as [Hfin|Hnf].
    + assert (demo_step d ThreadTurn = d) as ->
        by (simpl; rewrite Hfin; reflexivity).
      rewrite (finished_stays _ d Hfin). exact Hfin.
    + destruct (demo_inv_step program d r ThreadTurn Hinv) as [r1 Hinv1].
      destruct (thread_turn_progress program d r Hinv Htodo Hquit Hnf)
        as [Hfin | Hstep].
      * rewrite (finished_stays _ _ Hfin). exact Hfin.
      * apply (IH _ r1 Hinv1);
          [rewrite thread_turn_keeps_main; exact Htodo | exact Hquit | lia].
Qed.

Lemma thread_work_bound program d r :
  demo_inv program d r -> thread_work d <= 2 * length (sends program).
Proof.
  intros (_ & Hall & _). unfold thread_work. rewrite <- Hall.
  rewrite !length_app. destruct (thread d); simpl; lia.
Qed.

(** X12 (the demonstration cannot get stuck).  Let the program of main
    send "quit" at some point.  From whatever state an interleaving of
    main and the thread has reached, once main has carried out the rest of
    its program and the thread has then been given twice as many critical
    sections as the program has messages, plus one, the thread has left
    its loop: no message is left waiting with the consumer parked for
    good. *)
Theorem demo_completes program ts :
  "quit"%string ∈ sends program ->
  let d := demo_run ts (demo_start program) in
  thread
    (demo_run
       (repeat MainTurn (length (main_todo d))
        ++ repeat ThreadTurn (S (2 * length (sends program)))) d)
  = Finished.
Proof.
  intros Hquit d.
  destruct (demo_inv_run program ts _ _ (demo_inv_start program))
    as [r Hinv]. fold d in Hinv.
  destruct (demo_inv_run program (repeat MainTurn (length (main_todo d)))
              d r Hinv) as [r1 Hinv1].
  rewrite demo_run_app.
  apply (thread_turns_finish program _ _ r1 Hinv1).
  - apply main_turns_run_out. lia.
  - exact Hquit.
  - apply (thread_work_bound program _ r1 Hinv1).
Qed.

End demonstration.

(** With main idle, the critical sections of the thread compute what [test]
    computes. *)
Lemma thread_turns_compute_test (q out : list string) :
  exists n,
    match test (mkWorld (mkBQ q) out) with
    | (Returns _, w) =>
        demo_run (repeat ThreadTurn n) (mkDemo (mkBQ q) out [] AtDeQ)
        = mkDemo (pQ w) (cout w) [] Finished
    | (Blocks, w) =>
        demo_run (repeat ThreadTurn n) (mkDemo (mkBQ q) out [] AtDeQ)
        = mkDemo (pQ w) (cout w) [] InWait
    | _ => False
    end.
Proof.
  revert out. induction q as [|msg q IH]; intros out.
  - exists 1. rewrite test_nil. reflexivity.
  - destruct (decide (msg = "quit"%string)) as [->|Hne].
    + exists 2. rewrite test_cons_quit. reflexivity.
    + destruct (IH (out ++ [thread_line msg])) as [n Hn].
      exists (S (S n)). rewrite test_cons_other by exact Hne.
      rewrite !demo_run_repeat. simpl demo_step.
      destruct (decide (msg = "quit"%string)); [contradiction|].
      exact Hn.
Qed.

(** ** Concrete runs of the further properties *)

Open Scope string_scope.

Lemma history_conserves_elements_witness :
  forallb (fun r => negb (is_clear r)) demo_history = true /\
  ((serve_all demo_history (mkBQ ["z"])).1
   ++ q_ (serve_all demo_history (mkBQ ["z"])).2)%list
  = ["z"; "a"; "b"; "c"].
Proof.
  split; [reflexivity|].
  apply (history_conserves_elements demo_history (mkBQ ["z"])).
  reflexivity.
Defined.

Lemma enQ_deQ_commute_witness :
  q_ (mkBQ ["x"; "y"]) <> [] /\
  (enQ "t";; deQ) (mkBQ ["x"; "y"])
  = (v ← deQ; enQ "t";; mret v) (mkBQ ["x"; "y"]).
Proof.
  assert (q_ (mkBQ ["x"; "y"]) <> []) as H by discriminate.
  split; [exact H|]. apply (enQ_deQ_commute "t" (mkBQ ["x"; "y"]) H).
Defined.


Lemma move_assign_round_trip_witness :
  demo_store !! 1 = Some (mkBQ ["x"; "y"]) /\ is_Some (demo_store !! 2) /\
  1 <> 2 /\
  (move_assign 2 1;; move_assign 1 2) demo_store
  = (Returns tt, <[2 := new_queue]> demo_store).
Proof.
  assert (demo_store !! 1 = Some (mkBQ ["x"; "y"])) as H1 by reflexivity.
  assert (is_Some (demo_store !! 2)) as H2 by (eexists; reflexivity).
  assert (1 <> 2) as N by lia.
  repeat (split; [assumption|]).
  apply (move_assign_round_trip demo_store 1 2 ["x"; "y"] H1 H2 N).
Defined.

Lemma fifo_across_move_witness :
  demo_store !! 1 = Some (mkBQ ["x"; "y"]) /\ 1 <> 2 /\ 1 <> 3 /\
  is_Some (demo_store !! 2) /\ demo_store !! 3 = None /\
  ((on 1 (enQ_all ["u"; "v"]);; move_assign 2 1;;
    on 2 (deQ_n 4)) demo_store).1 = Returns ["x"; "y"; "u"; "v"] /\
  ((on 1 (enQ_all ["u"; "v"]);; move_ctor 3 1;;
    on 3 (deQ_n 4)) demo_store).1 = Returns ["x"; "y"; "u"; "v"].
Proof.
  assert (demo_store !! 1 = Some (mkBQ ["x"; "y"])) as H1 by reflexivity.
  assert (1 <> 2) as N12 by lia.
  assert (1 <> 3) as N13 by lia.
  assert (is_Some (demo_store !! 2)) as H2 by (eexists; reflexivity).
  assert (demo_store !! 3 = None) as H3 by reflexivity.
  repeat (split; [assumption|]).
  split.
  - destruct (fifo_across_move demo_store 1 2 (mkBQ ["x"; "y"]) ["u"; "v"]
                H1 N12) as [Hassign _].
    apply Hassign, H2.
  - destruct (fifo_across_move demo_store 1 3 (mkBQ ["x"; "y"]) ["u"; "v"]
                H1 N13) as [_ Hctor].
    apply Hctor, H3.
Defined.


Lemma test_stops_at_quit_witness :
  ("quit" ∉ ["a"; "b"]) /\
  test (mkWorld (mkBQ ["a"; "b"; "quit"; "c"]) [])
  = (Returns tt, mkWorld (mkBQ ["c"]) (map thread_line ["a"; "b"; "quit"])).
Proof.
  assert ("quit" ∉ ["a"; "b"]) as H
    by (apply (bool_decide_unpack _); vm_compute; exact I).
  split; [exact H|].
  exact (test_stops_at_quit ["a"; "b"] ["c"] [] H).
Defined.

Lemma test_waits_without_quit_witness :
  ("quit" ∉ ["a"; "b"]) /\
  test (mkWorld (mkBQ ["a"; "b"]) [])
  = (Blocks, mkWorld new_queue (map thread_line ["a"; "b"])).
Proof.
  assert ("quit" ∉ ["a"; "b"]) as H
    by (apply (bool_decide_unpack _); vm_compute; exact I).
  split; [exact H|].
  exact (test_waits_without_quit ["a"; "b"] [] H).
Defined.

Lemma demo_finished_is_complete_witness :
  sends main_program = (main_messages ++ ["quit"])%list /\
  ("quit" ∉ main_messages) /\
  thread (demo_run demo_schedule (demo_start main_program)) = Finished /\
  thread_lines (console (demo_run demo_schedule (demo_start main_program)))
  = map thread_line (main_messages ++ ["quit"])%list /\
  shared (demo_run demo_schedule (demo_start main_program)) = new_queue /\
  sends (main_todo (demo_run demo_schedule (demo_start main_program))) = [].
Proof.
  assert (sends main_program = (main_messages ++ ["quit"])%list) as Hp
    by (vm_compute; reflexivity).
  assert ("quit" ∉ main_messages) as Hq
    by (apply (bool_decide_unpack _); vm_compute; exact I).
  assert (thread (demo_run demo_schedule (demo_start main_program)) = Finished)
    as Hf by (vm_compute; reflexivity).
  repeat (split; [assumption|]).
  exact (demo_finished_is_complete main_program main_messages demo_schedule
           Hp Hq Hf).
Defined.

Lemma demo_completes_witness :
  ("quit" ∈ sends main_program) /\
  thread
    (demo_run
       (repeat MainTurn
          (length (main_todo
                     (demo_run [ThreadTurn; MainTurn; MainTurn; ThreadTurn]
                        (demo_start main_program))))
        ++ repeat ThreadTurn (S (2 * length (sends main_program))))%list
       (demo_run [ThreadTurn; MainTurn; MainTurn; ThreadTurn]
          (demo_start main_program)))
  = Finished.
Proof.
  assert ("quit" ∈ sends main_program) as Hq
    by (apply (bool_decide_unpack _); vm_compute; exact I).
  split; [exact Hq|].
  exact (demo_completes main_program
           [ThreadTurn; MainTurn; MainTurn; ThreadTurn] Hq).
Defined.

